(** * Shallow embedding of the batching, queue and sync-index code of sfs

    Sources: [pkg/files/batch.go], [pkg/service/queue.go],
    [pkg/service/sync.go], [pkg/service/dirs.go]. *)

From Stdlib Require Import ZArith Lia.
From stdpp Require Import base gmap list strings.

Open Scope Z_scope.

(** ** Go machine integers *)

(** [int64] (and [int] on a 64-bit target): two's complement wrap-around. *)
Definition i64 (z : Z) : Z := (z + 2 ^ 63) mod 2 ^ 64 - 2 ^ 63.

Definition in_i64 (z : Z) : Prop := - 2 ^ 63 <= z < 2 ^ 63.

(** [time.Time] as nanoseconds; [t.Sub(u)] saturates at the bounds of
    [time.Duration] (an [int64]). *)
Abbreviation Time := Z (only parsing).

Definition time_Sub (t u : Time) : Z :=
  Z.max (- 2 ^ 63) (Z.min (2 ^ 63 - 1) (t - u)).

(** ** Files *)

(** The fields of [File] the core reads: its ID, [f.Size()] (the length
    reported by [os.Stat]) and [LastSync]. *)
Record File := mkFile {
  fid : string;
  fsize : Z;
  flast : Time
}.

(** ** pkg/files/batch.go *)

Definition MAX : Z := 1000000000.

(** [BatchStatus] is an [int]; [AddFiles] also returns the bare [0]. *)
Definition BatchStatus := Z.
Definition Success : BatchStatus := 1.
Definition UnderCap : BatchStatus := 2.
Definition CapMaxed : BatchStatus := 3.

(** Batch IDs come from [NewUUID()]; they are modelled as a counter
    supplied by the caller. *)
Record Batch := mkBatch {
  bID : nat;
  Cap : Z;
  Total : Z;
  Full : bool;
  Files : gmap string File
}.

Definition NewBatch (uuid : nat) : Batch :=
  mkBatch uuid MAX 0 false ∅.

Definition NewTestBatch (uuid : nat) (cap : Z) : Batch :=
  mkBatch uuid cap 0 false ∅.

Definition HasFile (b : Batch) (id : string) : bool :=
  bool_decide (is_Some (Files b !! id)).

(** Modelled from the spec: [Diff] is not under src/. Section 4.1 of the spec
    describes [Diff(added, files)] as the set difference "original
    candidates minus placed candidates, in original order", and section 4.4
    uses [Prune = Diff(files, large)] as "files minus the large ones". The
    set difference taken in both directions (compared by file ID) meets both
    uses: every element of either list whose ID is absent from the other,
    in order. *)
Definition Diff (a b : list File) : list File :=
  filter (fun f => fid f ∉ map fid b) a ++ filter (fun f => fid f ∉ map fid a) b.

(** The body of the [for _, f := range files] loop of [AddFiles]; the three
    accumulators are [added], [notAdded] and [ignored]. The loop exits early
    ([break]) when the remaining capacity reaches exactly 0. *)
Fixpoint addLoop (b : Batch) (fs added notAdded ignored : list File)
  : Batch * list File * list File * list File :=
  match fs with
  | [] => (b, added, notAdded, ignored)
  | f :: rest =>
      if negb (HasFile b (fid f)) then
        if 0 <=? i64 (Cap b - fsize f) then
          let b' := mkBatch (bID b) (i64 (Cap b - fsize f)) (i64 (Total b + 1))
                            (Full b) (<[fid f := f]> (Files b)) in
          let added' := added ++ [f] in
          if Cap b' =? 0 then (b', added', notAdded, ignored)
          else addLoop b' rest added' notAdded ignored
        else addLoop b rest added (notAdded ++ [f]) ignored
      else addLoop b rest added notAdded (ignored ++ [f])
  end.

Definition setFull (b : Batch) : Batch :=
  mkBatch (bID b) (Cap b) (Total b) true (Files b).

(** [func (b *Batch) AddFiles(files []*File) ([]*File, BatchStatus)]; the
    batch after the call is returned first. *)
Definition AddFiles (b : Batch) (files : list File)
  : Batch * list File * BatchStatus :=
  let '(b', added, notAdded, ignored) := addLoop b files [] [] [] in
  if Nat.eqb (length added) (length files) then (b', added, Success)
  else if (Cap b' =? MAX) && Nat.ltb (length added) (length files) then
    (setFull b', Diff added files, CapMaxed)
  else if Nat.ltb 0 (length notAdded) && (Cap b' <? MAX) then
    (b', notAdded, UnderCap)
  else (b', [], 0).

(** [func (b *Batch) AddLgFiles(files []*File) error]: [Some msg] is a
    non-nil error. *)
Definition AddLgFiles (b : Batch) (files : list File) : Batch * option string :=
  match files with
  | [] => (b, Some "no files were added")
  | _ =>
      (mkBatch (bID b) (Cap b) (Total b) (Full b)
         (fold_left (fun m f => <[fid f := f]> m) files (Files b)), None)
  end.

(** ** pkg/service/queue.go (the first, error-returning [Dequeue]) *)

Record Queue := mkQueue {
  QTotal : Z;
  QItems : list Batch
}.

Definition NewQ : Queue := mkQueue 0 [].

Definition Enqueue (q : Queue) (b : Batch) : Queue :=
  mkQueue (i64 (QTotal q + 1)) (QItems q ++ [b]).

(** [func (q *Queue) Dequeue() ( *Batch, error)]: the queue after the call,
    the batch ([None] for nil) and the error ([Some msg] for non-nil). *)
Definition Dequeue (q : Queue) : Queue * option Batch * option string :=
  match QItems q with
  | [] => (q, None, Some "file queue is empty")
  | item :: rest => (mkQueue (i64 (QTotal q - 1)) rest, Some item, None)
  end.

(** ** pkg/service/sync.go *)

Record SyncIndex := mkSyncIndex {
  UserID : string;
  IdxFp : string;
  Sync : bool;
  LastSync : gmap string Time;
  ToUpdate : gmap string File
}.

Definition NewSyncIndex (userID : string) : SyncIndex :=
  mkSyncIndex userID "" false ∅ ∅.

Definition setLastSync (s : SyncIndex) (m : gmap string Time) : SyncIndex :=
  mkSyncIndex (UserID s) (IdxFp s) (Sync s) m (ToUpdate s).

Definition setToUpdate (s : SyncIndex) (m : gmap string File) : SyncIndex :=
  mkSyncIndex (UserID s) (IdxFp s) (Sync s) (LastSync s) m.

(** [GetFiles]: [None] is the nil slice; the values of [ToUpdate] in the
    map's iteration order. *)
Definition GetFiles (s : SyncIndex) : option (list File) :=
  if Nat.eqb (size (ToUpdate s)) 0 then None
  else Some (map snd (map_to_list (ToUpdate s))).

Definition wontFit (files : list File) (limit : Z) : bool :=
  Nat.eqb (length (filter (fun f => limit < fsize f) files)) (length files).

Definition GetLargeFiles (files : list File) : list File :=
  match files with
  | [] => []
  | _ => filter (fun file => MAX < fsize file) files
  end.

Definition Prune (files : list File) : list File :=
  let lgf := GetLargeFiles files in Diff files lgf.

(** The [for len(f) > 0] loop of [buildQ]. [fuel] bounds the number of
    executions of the loop body: [None] means the loop was still running
    when the fuel ran out. [uuid] supplies the IDs of new batches. *)
Fixpoint buildQ (fuel : nat) (f : list File) (b : Batch) (q : Queue) (uuid : nat)
  : option Queue :=
  match f with
  | [] => Some q
  | _ =>
      match fuel with
      | O => None
      | S fuel' =>
          let '(b, lo, status) := AddFiles b f in
          if status =? Success then Some (Enqueue q b)
          else if status =? CapMaxed then
            buildQ fuel' lo (NewBatch uuid) (Enqueue q b) (S uuid)
          else if status =? UnderCap then
            if wontFit lo (Cap b) then
              if Nat.ltb 0 (size (Files b)) then
                buildQ fuel' lo (NewBatch uuid) (Enqueue q b) (S uuid)
              else buildQ fuel' lo b q uuid
            else buildQ fuel' lo b q uuid
          else buildQ fuel' lo b q uuid
      end
  end.

Definition LargeFileQ (uuid : nat) (files : list File) : Queue :=
  let b := NewBatch uuid in
  let '(b, _) := AddLgFiles b files in
  Enqueue NewQ b.

(** [BuildQ]: [None] = the loop of [buildQ] did not finish within [fuel]
    iterations; [Some None] = the nil queue. *)
Definition BuildQ (fuel : nat) (idx : SyncIndex) (uuid : nat) : option (option Queue) :=
  match GetFiles idx with
  | None => Some None
  | Some files =>
      if Nat.eqb (length files) 0 then Some None
      else if wontFit files MAX then Some (Some (LargeFileQ uuid files))
      else option_map Some (buildQ fuel files (NewBatch uuid) NewQ (S uuid))
  end.

(** ** pkg/service/dirs.go *)

(** A directory: its ID, owner, files and subdirectories; the two Go maps
    are given as lists in the order the runtime iterates them. *)
#[local] Set Warnings "-register-all".
Inductive Directory := mkDir {
  dID : string;
  OwnerID : string;
  dFiles : list File;
  Dirs : list Directory
}.

Definition buildSync (files : list File) (idx : SyncIndex) : SyncIndex :=
  fold_left (fun idx file =>
    match LastSync idx !! fid file with
    | Some _ => idx
    | None => setLastSync idx (<[fid file := flast file]> (LastSync idx))
    end) files idx.

(** [walkS] mutates the shared index and returns it or nil: the result is
    the index after the call and whether the returned pointer is non-nil. *)
Fixpoint walkS (dir : Directory) (idx : SyncIndex) {struct dir} : SyncIndex * bool :=
  let idx := match dFiles dir with [] => idx | fs => buildSync fs idx end in
  match Dirs dir with
  | [] => (idx, true)
  | ds =>
      (fix loop (ds : list Directory) (idx : SyncIndex) : SyncIndex * bool :=
         match ds with
         | [] => (idx, false)
         | sub :: rest =>
             let '(idx, nonnil) := walkS sub idx in
             if nonnil then (idx, true) else loop rest idx
         end) ds idx
  end.

Definition BuildSyncIndex (root : Directory) : option SyncIndex :=
  let '(idx, nonnil) := walkS root (NewSyncIndex (OwnerID root)) in
  if nonnil then Some idx else None.

(** One iteration of the loop of [buildUpdate]. *)
Definition updateFile (idx : SyncIndex) (file : File) : SyncIndex :=
  match LastSync idx !! fid file with
  | Some t =>
      if 0 <? time_Sub (flast file) t
      then setToUpdate idx (<[fid file := file]> (ToUpdate idx))
      else idx
  | None => idx
  end.

Definition buildUpdate (files : list File) (idx : SyncIndex) : SyncIndex :=
  fold_left updateFile files idx.

Fixpoint walkU (dir : Directory) (idx : SyncIndex) {struct dir} : SyncIndex * bool :=
  let idx := match dFiles dir with [] => idx | fs => buildUpdate fs idx end in
  match Dirs dir with
  | [] => (idx, true)
  | ds =>
      (fix loop (ds : list Directory) (idx : SyncIndex) : SyncIndex * bool :=
         match ds with
         | [] => (idx, false)
         | sub :: rest =>
             let '(idx, nonnil) := walkU sub idx in
             if nonnil then (idx, true) else loop rest idx
         end) ds idx
  end.

Definition BuildToUpdate (root : Directory) (idx : SyncIndex) : option SyncIndex :=
  let '(idx, nonnil) := walkU root idx in
  if nonnil then Some idx else None.

(** ** Derived notions used in the statements *)

(** [os.Stat] lengths are non-negative [int64] values. *)
Definition valid_size (f : File) : Prop := 0 <= fsize f < 2 ^ 63.

(** Sum of the sizes of the members of a batch. *)
Definition members_size (m : gmap string File) : Z :=
  map_fold (fun _ f acc => fsize f + acc) 0 m.

(** A sequence of [AddFiles] calls on one batch. *)
Definition runAddFiles (b : Batch) (calls : list (list File)) : Batch :=
  fold_left (fun b fs => (AddFiles b fs).1.1) calls b.

Definition insertFiles (m : gmap string File) (fs : list File) : gmap string File :=
  fold_left (fun m f => <[fid f := f]> m) fs m.

(** The files [BuildToUpdate] visits: [walkU] returns from the loop over
    the subdirectories as soon as one recursive call returns a non-nil
    index, which every call does. *)
Fixpoint visitedU (dir : Directory) : list File :=
  dFiles dir ++ match Dirs dir with [] => [] | sub :: _ => visitedU sub end.

(** Calls made on one queue. *)
Inductive QOp :=
| OpEnqueue (b : Batch)
| OpDequeue.

Definition qstep (q : Queue) (op : QOp) : Queue :=
  match op with
  | OpEnqueue b => Enqueue q b
  | OpDequeue => (Dequeue q).1.1
  end.

Definition runQ (q : Queue) (ops : list QOp) : Queue := fold_left qstep ops q.

(** ** Further functions of the same files *)

(** [func (s *SyncIndex) IsMapped() bool] *)
Definition IsMapped (s : SyncIndex) : bool :=
  if Nat.eqb (size (LastSync s)) 0 then false
  else if Nat.eqb (size (ToUpdate s)) 0 then false
  else true.

(** [func (s *SyncIndex) Reset()]: every key of [ToUpdate], in iteration
    order, is deleted. *)
Definition Reset (s : SyncIndex) : SyncIndex :=
  if Nat.eqb (size (ToUpdate s)) 0 then s
  else setToUpdate s (fold_left (fun m key => delete key m)
                        (map fst (map_to_list (ToUpdate s))) (ToUpdate s)).

(** [func (s *SyncIndex) HasFile(fileID string) bool]; renamed, as the name
    is taken by the method of [Batch]. *)
Definition HasFileIdx (s : SyncIndex) (fileID : string) : bool :=
  match LastSync s !! fileID with
  | None => false
  | Some _ => true
  end.

(** The result of [Compare]: a [SyncIndex] whose [ToUpdate] holds nil
    pointers, so its values are [option File] ([None] is nil). *)
Record DiffIndex := mkDiffIndex {
  DUserID : string;
  DIdxFp : string;
  DSync : bool;
  DLastSync : gmap string Time;
  DToUpdate : gmap string (option File)
}.

(** [func Compare(orig *SyncIndex, new *SyncIndex) *SyncIndex]: the loop
    over [new.LastSync]. Each iteration writes only the keys [fileID], so
    the result does not depend on the iteration order. The lookup
    [orig.LastSync[fileID]] is guarded by [orig.HasFile(fileID)]; its
    default is never used. *)
Definition Compare (orig new : SyncIndex) : DiffIndex :=
  map_fold (fun fileID lastSync diff =>
    if HasFileIdx orig fileID then
      let diff :=
        if 0 <? time_Sub (default 0 (LastSync orig !! fileID)) lastSync
        then mkDiffIndex (DUserID diff) (DIdxFp diff) (DSync diff) (DLastSync diff)
               (<[fileID := None]> (DToUpdate diff))
        else diff in
      mkDiffIndex (DUserID diff) (DIdxFp diff) (DSync diff)
        (<[fileID := lastSync]> (DLastSync diff)) (DToUpdate diff)
    else diff)
    (mkDiffIndex (UserID orig) "" false ∅ ∅) (LastSync new).

(** [func (q *Queue) TotalFiles() int] *)
Definition TotalFiles (q : Queue) : Z :=
  match QItems q with
  | [] => 0
  | items => fold_left (fun total batch => i64 (total + Total batch)) items 0
  end.

(** [func walkF(dir *Directory, fileID string) *File]: [dir.Files] is keyed
    by file ID, so the lookup finds the file with that ID. *)
Fixpoint walkF (dir : Directory) (fileID : string) {struct dir} : option File :=
  match find (fun file => bool_decide (fid file = fileID)) (dFiles dir) with
  | Some file => Some file
  | None =>
      if Nat.eqb (length (Dirs dir)) 0 then None
      else
        (fix loop (ds : list Directory) : option File :=
           match ds with
           | [] => None
           | sub :: rest =>
               match walkF sub fileID with
               | Some file => Some file
               | None => loop rest
               end
           end) (Dirs dir)
  end.

(** [func walkFs(dir *Directory, files map[string]*File) map[string]*File].
    The loop over [dir.Dirs] returns in its first iteration; the [return nil]
    after it is reached only when [dir.Dirs] is empty, which the guard
    before it has already handled. *)
Fixpoint walkFs (dir : Directory) (files : gmap string File) {struct dir}
  : gmap string File :=
  let files := fold_left (fun files file =>
                 match files !! fid file with
                 | Some _ => files
                 | None => <[fid file := file]> files
                 end) (dFiles dir) files in
  match Dirs dir with
  | [] => files
  | subDir :: _ => walkFs subDir files
  end.

Definition WalkFs (d : Directory) : gmap string File := walkFs d ∅.

(** [func walkD(dir *Directory, dirID string) *Directory]: [dir.Dirs] is
    keyed by directory ID, so the lookup finds the subdirectory with that
    ID. *)
Fixpoint walkD (dir : Directory) (dirID : string) {struct dir} : option Directory :=
  if Nat.eqb (length (Dirs dir)) 0 then None
  else
    match find (fun d => bool_decide (dID d = dirID)) (Dirs dir) with
    | Some d => Some d
    | None =>
        (fix loop (ds : list Directory) : option Directory :=
           match ds with
           | [] => None
           | sub :: rest =>
               match walkD sub dirID with
               | Some sd => Some sd
               | None => loop rest
               end
           end) (Dirs dir)
    end.

(** Every file of a directory tree, depth first. *)
Fixpoint treeFiles (dir : Directory) : list File :=
  dFiles dir ++ flat_map treeFiles (Dirs dir).

(** Every proper subdirectory of a directory tree. *)
Fixpoint treeDirs (dir : Directory) : list Directory :=
  flat_map (fun sub => sub :: treeDirs sub) (Dirs dir).

(** [n] calls of [Dequeue]: the queue after them and the batches returned. *)
Fixpoint dequeueN (n : nat) (q : Queue) : Queue * list (option Batch) :=
  match n with
  | O => (q, [])
  | S n' =>
      let '(q, item, _) := Dequeue q in
      let '(q, items) := dequeueN n' q in
      (q, item :: items)
  end.

Definition sumTotals (bs : list Batch) : Z := fold_right (fun b acc => Total b + acc) 0 bs.

(** ** Sample inputs *)

Definition small_file : File := mkFile "a" 1 0.
Definition huge_file : File := mkFile "c" (MAX + 1) 0.
Definition max_file : File := mkFile "m" MAX 0.

Definition mixed_index : SyncIndex :=
  setToUpdate (NewSyncIndex "u")
    (<[fid small_file := small_file]> (<[fid huge_file := huge_file]> ∅)).

Definition two_branch_tree (first second : list File) : Directory :=
  mkDir "root" "owner" []
    [mkDir "d1" "owner" first []; mkDir "d2" "owner" second []].

Definition file_x : File := mkFile "x" 10 5.
Definition file_y : File := mkFile "y" 20 7.
Definition zero_file : File := mkFile "z" 0 0.

(** ** Arithmetic helpers *)

Lemma i64_id (z : Z) : - 2 ^ 63 <= z < 2 ^ 63 -> i64 z = z.
Proof.
  intros Hz. unfold i64.
  rewrite Z.mod_small by lia. lia.
Qed.

Lemma time_Sub_pos (t u : Time) : 0 < time_Sub t u <-> u < t.
Proof. unfold time_Sub. lia. Qed.

Lemma members_size_insert (m : gmap string File) (k : string) (f : File) :
  m !! k = None -> members_size (<[k := f]> m) = fsize f + members_size m.
Proof.
  intros Hk. unfold members_size.
  rewrite map_fold_insert_L; [reflexivity | intros; lia | exact Hk].
Qed.

(** ** The loop of [AddFiles] *)

Section AddLoop.

Lemma HasFile_false (b : Batch) (k : string) :
  HasFile b k = false -> Files b !! k = None.
Proof.
  unfold HasFile. rewrite bool_decide_eq_false.
  destruct (Files b !! k); [intros []; eauto | done].
Qed.

Lemma HasFile_true (b : Batch) (k : string) :
  HasFile b k = true -> is_Some (Files b !! k).
Proof. unfold HasFile. rewrite bool_decide_eq_true. done. Qed.

(** What one run of the loop does with its input: a prefix [examined] is
    split among the three accumulators; the rest is only left unexamined
    after the capacity reached 0. *)
Lemma addLoop_spec (fs : list File) :
  forall b ad na ig b' ad' na' ig',
  addLoop b fs ad na ig = (b', ad', na', ig') ->
  exists examined rest A N I,
    fs = examined ++ rest /\ ad' = ad ++ A /\ na' = na ++ N /\ ig' = ig ++ I /\
    examined ≡ₚ A ++ N ++ I /\ sublist A fs /\
    (rest <> [] -> Cap b' = 0) /\
    Files b' = insertFiles (Files b) A /\
    Forall (fun f => Files b !! fid f = None) A /\ NoDup (map fid A) /\
    Forall (fun f => is_Some (Files b' !! fid f)) I /\
    (forall k, is_Some (Files b !! k) -> is_Some (Files b' !! k)).
Proof.
  induction fs as [|f fs IH]; intros b ad na ig b' ad' na' ig' Hrun; simpl in Hrun.
  - injection Hrun as <- <- <- <-.
    exists [], [], [], [], []. rewrite !app_nil_r.
    repeat split; try done; constructor.
  - destruct (HasFile b (fid f)) eqn:Hhas; simpl in Hrun.
    + (* duplicate *)
      apply IH in Hrun as (ex & rest & A & N & I & -> & -> & -> & -> & Hp & Hsub &
                           Hrest & Hfiles & Hfresh & Hnd & Hig & Hmono).
      exists (f :: ex), rest, A, N, (f :: I).
      rewrite <- !app_assoc. simpl.
      repeat split; try done.
      * rewrite Hp. solve_Permutation.
      * by apply sublist_cons.
      * constructor; [apply Hmono, HasFile_true, Hhas | exact Hig].
    + apply HasFile_false in Hhas.
      destruct (0 <=? i64 (Cap b - fsize f)) eqn:Hfit.
      * destruct (i64 (Cap b - fsize f) =? 0) eqn:Hzero; simpl in Hrun.
        -- (* added, then break *)
           injection Hrun as <- <- <- <-.
           exists [f], fs, [f], [], []. rewrite !app_nil_r.
           repeat split; try done.
           ++ by apply sublist_skip, sublist_nil_l.
           ++ intros _. simpl. by apply Z.eqb_eq.
           ++ constructor; [exact Hhas | constructor].
           ++ constructor; [set_solver | constructor].
           ++ intros k Hk. simpl. destruct (decide (k = fid f)) as [->|Hne].
              ** by rewrite lookup_insert_eq.
              ** by rewrite lookup_insert_ne.
        -- (* added, continue *)
           apply IH in Hrun as (ex & rest & A & N & I & -> & -> & -> & -> & Hp & Hsub &
                                Hrest & Hfiles & Hfresh & Hnd & Hig & Hmono).
           simpl in *.
           exists (f :: ex), rest, (f :: A), N, I.
           rewrite <- !app_assoc. simpl.
           repeat split; try done.
           ++ rewrite Hp. done.
           ++ by apply sublist_skip.
           ++ rewrite Forall_forall in Hfresh |- *.
              intros g [->|Hg]%elem_of_cons; [exact Hhas|].
              specialize (Hfresh g Hg). simpl in Hfresh.
              destruct (decide (fid g = fid f)) as [Heq|Hne].
              ** rewrite Heq, lookup_insert_eq in Hfresh. discriminate.
              ** by rewrite lookup_insert_ne in Hfresh.
           ++ constructor; [|exact Hnd].
              intros Hin. apply list_elem_of_In, in_map_iff in Hin as (g & Hg & HgA).
              apply list_elem_of_In in HgA.
              rewrite Forall_forall in Hfresh. specialize (Hfresh g HgA).
              simpl in Hfresh. rewrite <- Hg, lookup_insert_eq in Hfresh. discriminate.
           ++ intros k Hk. apply Hmono. simpl.
              destruct (decide (k = fid f)) as [->|Hne].
              ** by rewrite lookup_insert_eq.
              ** by rewrite lookup_insert_ne.
      * (* rejected for size *)
        apply IH in Hrun as (ex & rest & A & N & I & -> & -> & -> & -> & Hp & Hsub &
                             Hrest & Hfiles & Hfresh & Hnd & Hig & Hmono).
        exists (f :: ex), rest, A, (f :: N), I.
        rewrite <- !app_assoc. simpl.
        repeat split; try done.
        -- rewrite Hp. solve_Permutation.
        -- by apply sublist_cons.
Qed.

End AddLoop.

Lemma sublist_same_length (l1 l2 : list File) :
  sublist l1 l2 -> (length l2 <= length l1)%nat -> l1 = l2.
Proof.
  induction 1 as [|x l1 l2 H IH|x l1 l2 H IH]; simpl; intros Hlen.
  - reflexivity.
  - f_equal. apply IH. lia.
  - apply sublist_length in H. lia.
Qed.

Lemma AddFiles_cases (b : Batch) (files : list File) :
  let '(b', ad, na, ig) := addLoop b files [] [] [] in
  Cap (AddFiles b files).1.1 = Cap b' /\ Files (AddFiles b files).1.1 = Files b' /\
  (((AddFiles b files).2 = Success /\ (AddFiles b files).1.2 = ad /\
      length ad = length files) \/
   ((AddFiles b files).2 = CapMaxed /\ (AddFiles b files).1.2 = Diff ad files /\
      length ad <> length files) \/
   ((AddFiles b files).2 = UnderCap /\ (AddFiles b files).1.2 = na /\
      length ad <> length files) \/
   ((AddFiles b files).2 = 0 /\ (AddFiles b files).1.2 = [] /\
      length ad <> length files)).
Proof.
  unfold AddFiles.
  destruct (addLoop b files [] [] []) as [[[b' ad] na] ig].
  destruct (Nat.eqb_spec (length ad) (length files)).
  { simpl. split; [done|split; [done|]]. left. auto. }
  destruct ((Cap b' =? MAX) && Nat.ltb (length ad) (length files)); simpl.
  { split; [done|split; [done|]]. right; left. auto. }
  destruct (Nat.ltb 0 (length na) && (Cap b' <? MAX)); simpl;
    (split; [done|split; [done|]]); right; right; [left|right]; auto.
Qed.

Lemma addLoop_capacity (c0 : Z) (fs : list File) :
  forall b ad na ig,
  0 <= Cap b < 2 ^ 63 -> Cap b + members_size (Files b) = c0 ->
  Forall valid_size fs ->
  0 <= Cap (addLoop b fs ad na ig).1.1.1 < 2 ^ 63 /\
  Cap (addLoop b fs ad na ig).1.1.1 + members_size (Files (addLoop b fs ad na ig).1.1.1) = c0.
Proof.
  induction fs as [|f fs IH]; intros b ad na ig Hcap Hsum Hvalid; simpl; [done|].
  apply Forall_cons in Hvalid as [[Hf0 Hf1] Hvalid].
  destruct (HasFile b (fid f)) eqn:Hhas; simpl; [by apply IH|].
  apply HasFile_false in Hhas.
  assert (Hr : i64 (Cap b - fsize f) = Cap b - fsize f) by (apply i64_id; lia).
  rewrite Hr.
  destruct (0 <=? Cap b - fsize f) eqn:Hfit; [|by apply IH].
  apply Z.leb_le in Hfit.
  assert (Hins : Cap b - fsize f + members_size (<[fid f := f]> (Files b)) = c0).
  { rewrite members_size_insert by exact Hhas. lia. }
  destruct (Cap b - fsize f =? 0); simpl.
  - split; [lia | exact Hins].
  - apply IH; simpl; [lia | exact Hins | exact Hvalid].
Qed.

Lemma AddFiles_capacity (c0 : Z) (b : Batch) (fs : list File) :
  0 <= Cap b < 2 ^ 63 -> Cap b + members_size (Files b) = c0 ->
  Forall valid_size fs ->
  0 <= Cap (AddFiles b fs).1.1 < 2 ^ 63 /\
  Cap (AddFiles b fs).1.1 + members_size (Files (AddFiles b fs).1.1) = c0.
Proof.
  intros Hcap Hsum Hvalid.
  pose proof (AddFiles_cases b fs) as Hc.
  pose proof (addLoop_capacity c0 fs b [] [] [] Hcap Hsum Hvalid) as Hl.
  destruct (addLoop b fs [] [] []) as [[[b' ad] na] ig].
  destruct Hc as (-> & -> & _). exact Hl.
Qed.

(** ** Capacity of a batch (pkg/files/batch.go) *)

(** C2: over any sequence of [AddFiles] calls on a batch that starts empty
    with an [int64] capacity [Cap b0 >= 0], the remaining capacity plus the
    sum of the sizes of the members stays equal to the initial capacity,
    and the remaining capacity never drops below 0. *)
Theorem AddFiles_capacity_invariant (b0 : Batch) (calls : list (list File)) :
  Files b0 = ∅ -> 0 <= Cap b0 < 2 ^ 63 -> Forall (Forall valid_size) calls ->
  Cap (runAddFiles b0 calls) + members_size (Files (runAddFiles b0 calls)) = Cap b0 /\
  0 <= Cap (runAddFiles b0 calls).
Proof.
  intros Hempty Hcap Hcalls.
  assert (Hgen : forall b, 0 <= Cap b < 2 ^ 63 ->
            Cap b + members_size (Files b) = Cap b0 ->
            0 <= Cap (runAddFiles b calls) < 2 ^ 63 /\
            Cap (runAddFiles b calls) + members_size (Files (runAddFiles b calls)) = Cap b0).
  { unfold runAddFiles.
    induction calls as [|fs calls IH]; intros b Hb Hsum; simpl; [done|].
    apply Forall_cons in Hcalls as [Hfs Hcalls].
    destruct (AddFiles_capacity (Cap b0) b fs Hb Hsum Hfs) as [Hb' Hsum'].
    exact (IH Hcalls _ Hb' Hsum'). }
  destruct (Hgen b0 Hcap) as [Hr Hs].
  - rewrite Hempty. unfold members_size. rewrite map_fold_empty. lia.
  - split; [exact Hs | lia].
Qed.

Lemma AddFiles_capacity_invariant_witness :
  Cap (runAddFiles (NewBatch 0) [[small_file; huge_file; max_file]; [max_file; small_file]])
  + members_size (Files (runAddFiles (NewBatch 0)
                          [[small_file; huge_file; max_file]; [max_file; small_file]]))
  = Cap (NewBatch 0) /\
  0 <= Cap (runAddFiles (NewBatch 0) [[small_file; huge_file; max_file]; [max_file; small_file]]).
Proof.
  apply AddFiles_capacity_invariant.
  - reflexivity.
  - unfold NewBatch, MAX. simpl. lia.
  - repeat (apply Forall_cons; split); try exact (List.Forall_nil _);
      unfold valid_size; simpl; unfold MAX; lia.
Defined.

(** ** Outcome and returned list of [AddFiles] *)

(** C3 (as amended): [AddFiles] reports [Success] exactly when every
    candidate was newly added (the added list is the whole input); the list
    it then returns is the added list, i.e. the input itself, so it is
    non-empty whenever the input is. *)
Theorem AddFiles_success_exact (b : Batch) (files : list File) :
  ((AddFiles b files).2 = Success <-> (addLoop b files [] [] []).1.1.2 = files) /\
  ((AddFiles b files).2 = Success -> (AddFiles b files).1.2 = files).
Proof.
  pose proof (AddFiles_cases b files) as Hc.
  destruct (addLoop b files [] [] []) as [[[b' ad] na] ig] eqn:Hrun.
  apply addLoop_spec in Hrun as (ex & rest & A & N & I & Hsplit & -> & -> & -> &
                                 Hp & Hsub & _).
  simpl in *.
  destruct Hc as (_ & _ & Hc).
  destruct Hc as [(Hs & Hlo & Hlen) | [(Hs & _ & Hlen) | [(Hs & _ & Hlen) | (Hs & _ & Hlen)]]];
    rewrite Hs.
  - assert (HA : A = files) by (apply sublist_same_length; [exact Hsub | lia]).
    split; [split; [done | done] | intros _; rewrite Hlo; exact HA].
  - split; [split; [discriminate | intros ->; done] | discriminate].
  - split; [split; [discriminate | intros ->; done] | discriminate].
  - split; [split; [discriminate | intros ->; done] | discriminate].
Qed.

(** Against C3 as stated: on a fresh batch the one-file call [[small_file]]
    places its only candidate, reports [Success] and returns [[small_file]],
    not an empty list; and a call whose only candidate is already a member
    (a duplicate) returns outcome 0, not [Success]. *)
Lemma AddFiles_success_returns_added :
  (AddFiles (NewBatch 0) [small_file]).2 = Success /\
  (AddFiles (NewBatch 0) [small_file]).1.2 = [small_file] /\
  (AddFiles (AddFiles (NewBatch 0) [small_file]).1.1 [small_file]).2 = 0.
Proof. vm_compute. auto. Qed.

(** What one [AddFiles] call does with its candidates: those its loop
    examines, that is every candidate up to the point where the remaining
    capacity reaches exactly 0, are split without loss or overlap among the
    added list (each newly inserted into the members), the
    rejected-for-size list and the ignored-duplicate list. The returned
    list is the added list on [Success], the input minus the added files on
    [CapMaxed], the rejected-for-size list on [UnderCap], and empty
    otherwise. *)
Theorem AddFiles_examined_partition (b : Batch) (files : list File) :
  let '(b', ad, na, ig) := addLoop b files [] [] [] in
  (exists examined rest, files = examined ++ rest /\ examined ≡ₚ ad ++ na ++ ig /\
     (rest <> [] -> Cap b' = 0)) /\
  Files (AddFiles b files).1.1 = insertFiles (Files b) ad /\
  Forall (fun f => Files b !! fid f = None) ad /\ NoDup (map fid ad) /\
  Forall (fun f => is_Some (Files (AddFiles b files).1.1 !! fid f)) ig /\
  (((AddFiles b files).2 = Success /\ (AddFiles b files).1.2 = ad) \/
   ((AddFiles b files).2 = CapMaxed /\ (AddFiles b files).1.2 = Diff ad files) \/
   ((AddFiles b files).2 = UnderCap /\ (AddFiles b files).1.2 = na) \/
   ((AddFiles b files).2 = 0 /\ (AddFiles b files).1.2 = [])).
Proof.
  pose proof (AddFiles_cases b files) as Hc.
  destruct (addLoop b files [] [] []) as [[[b' ad] na] ig] eqn:Hrun.
  apply addLoop_spec in Hrun as (ex & rest & A & N & I & Hsplit & -> & -> & -> &
                                 Hp & _ & Hrest & Hfiles & Hfresh & Hnd & Hig & _).
  simpl in *.
  destruct Hc as (_ & HF & Hc). rewrite HF.
  split; [exists ex, rest; auto|].
  split; [exact Hfiles|].
  split; [exact Hfresh|]. split; [exact Hnd|]. split; [exact Hig|].
  destruct Hc as [(? & ? & _) | [(? & ? & _) | [(? & ? & _) | (? & ? & _)]]]; tauto.
Qed.

(** C4 (code_bug): when a fresh candidate fills the remaining capacity
    exactly and more candidates follow, the loop breaks, [AddFiles] returns
    the bare status 0 with an empty list, and every later candidate that
    was not already a member is neither added nor returned: it is dropped. *)
Theorem AddFiles_drops_after_zero_capacity (b : Batch) (f : File) (rest : list File) :
  Files b !! fid f = None -> Cap b = fsize f -> rest <> [] ->
  (AddFiles b (f :: rest)).2 = 0 /\ (AddFiles b (f :: rest)).1.2 = [] /\
  Files (AddFiles b (f :: rest)).1.1 = <[fid f := f]> (Files b) /\
  (forall g, g ∈ rest -> fid g <> fid f -> Files b !! fid g = None ->
     Files (AddFiles b (f :: rest)).1.1 !! fid g = None).
Proof.
  intros Hf Hcap Hrest.
  assert (Hhas : HasFile b (fid f) = false) by (unfold HasFile; rewrite Hf; reflexivity).
  assert (Hz : i64 (Cap b - fsize f) = 0) by (rewrite Hcap, Z.sub_diag; reflexivity).
  assert (Hloop : addLoop b (f :: rest) [] [] [] =
            (mkBatch (bID b) 0 (i64 (Total b + 1)) (Full b) (<[fid f := f]> (Files b)),
             [f], [], [])).
  { simpl. rewrite Hhas, Hz. reflexivity. }
  assert (Hlen : Nat.eqb (length [f]) (length (f :: rest)) = false).
  { destruct rest; [done|reflexivity]. }
  unfold AddFiles. rewrite Hloop. cbv beta iota. rewrite Hlen.
  cbv beta iota. simpl.
  repeat split.
  intros g _ Hne Hg. rewrite lookup_insert_ne by congruence. exact Hg.
Qed.

Lemma AddFiles_drops_after_zero_capacity_witness :
  Files (NewTestBatch 0 1) !! fid small_file = None /\
  Cap (NewTestBatch 0 1) = fsize small_file /\
  [file_x; zero_file] <> [] /\
  (AddFiles (NewTestBatch 0 1) [small_file; file_x; zero_file]).2 = 0 /\
  (AddFiles (NewTestBatch 0 1) [small_file; file_x; zero_file]).1.2 = [] /\
  Files (AddFiles (NewTestBatch 0 1) [small_file; file_x; zero_file]).1.1
    = <[fid small_file := small_file]> (Files (NewTestBatch 0 1)) /\
  (forall g, g ∈ [file_x; zero_file] -> fid g <> fid small_file ->
     Files (NewTestBatch 0 1) !! fid g = None ->
     Files (AddFiles (NewTestBatch 0 1) [small_file; file_x; zero_file]).1.1 !! fid g = None).
Proof.
  assert (H1 : Files (NewTestBatch 0 1) !! fid small_file = None) by reflexivity.
  assert (H2 : Cap (NewTestBatch 0 1) = fsize small_file) by reflexivity.
  assert (H3 : [file_x; zero_file] <> []) by discriminate.
  split; [exact H1|]. split; [exact H2|]. split; [exact H3|].
  exact (AddFiles_drops_after_zero_capacity (NewTestBatch 0 1) small_file
           [file_x; zero_file] H1 H2 H3).
Defined.

(** ** The loop of [buildQ] (pkg/service/sync.go) *)

Section BuildQLoop.

Lemma buildQ_step_capmaxed (n : nat) (f lo : list File) (b b' : Batch) (q : Queue) (u : nat) :
  f <> [] -> AddFiles b f = (b', lo, CapMaxed) ->
  buildQ (S n) f b q u = buildQ n lo (NewBatch u) (Enqueue q b') (S u).
Proof.
  intros Hf Hadd. destruct f as [|g f]; [done|].
  cbn [buildQ]. rewrite Hadd. reflexivity.
Qed.

Lemma buildQ_step_undercap_new (n : nat) (f lo : list File) (b b' : Batch) (q : Queue) (u : nat) :
  f <> [] -> AddFiles b f = (b', lo, UnderCap) ->
  wontFit lo (Cap b') = true -> (0 < size (Files b'))%nat ->
  buildQ (S n) f b q u = buildQ n lo (NewBatch u) (Enqueue q b') (S u).
Proof.
  intros Hf Hadd Hwf Hsz. destruct f as [|g f]; [done|].
  cbn [buildQ]. rewrite Hadd. cbn -[buildQ wontFit size].
  rewrite Hwf. apply Nat.ltb_lt in Hsz. unfold UnderCap in *.
  destruct (size (Files b')) as [|m]; [discriminate|]. reflexivity.
Qed.

Lemma AddFiles_fresh_huge (k : nat) :
  AddFiles (NewBatch k) [huge_file] = (setFull (NewBatch k), [huge_file], CapMaxed).
Proof. reflexivity. Qed.

(** A fresh batch rejects [huge_file], reports [CapMaxed] (its capacity is
    still [MAX]) and hands the same file back: the loop enqueues an empty
    batch and starts over in the same state. *)
Lemma buildQ_huge_forever (n : nat) :
  forall k q, buildQ n [huge_file] (NewBatch k) q (S k) = None.
Proof.
  induction n as [|n IH]; intros k q; [reflexivity|].
  rewrite (buildQ_step_capmaxed n [huge_file] [huge_file] (NewBatch k)
             (setFull (NewBatch k)) q (S k) ltac:(done) (AddFiles_fresh_huge k)).
  apply IH.
Qed.

End BuildQLoop.

(** C1 (code_bug): [buildQ] on [[small_file; huge_file]] (one file that fits
    a fresh batch and one larger than [MAX]) never returns: for every
    iteration bound the loop is still running. The same holds for [BuildQ]
    on an index whose [ToUpdate] holds these two files, since not every file
    exceeds [MAX] and the all-oversized bypass does not apply. *)
Theorem buildQ_mixed_never_returns (fuel : nat) :
  buildQ fuel [small_file; huge_file] (NewBatch 0) NewQ 1 = None /\
  BuildQ fuel mixed_index 0 = None.
Proof.
  split.
  - destruct fuel as [|fuel]; [reflexivity|].
    rewrite (buildQ_step_undercap_new fuel [small_file; huge_file] [huge_file]
               (NewBatch 0) (AddFiles (NewBatch 0) [small_file; huge_file]).1.1
               NewQ 1 ltac:(done) ltac:(vm_compute; reflexivity)
               ltac:(vm_compute; reflexivity) ltac:(vm_compute; lia)).
    apply buildQ_huge_forever.
  - unfold BuildQ.
    replace (GetFiles mixed_index) with (Some [huge_file; small_file])
      by (vm_compute; reflexivity).
    cbn -[buildQ].
    destruct fuel as [|fuel]; [reflexivity|].
    rewrite (buildQ_step_undercap_new fuel [huge_file; small_file] [huge_file]
               (NewBatch 0) (AddFiles (NewBatch 0) [huge_file; small_file]).1.1
               NewQ 1 ltac:(done) ltac:(vm_compute; reflexivity)
               ltac:(vm_compute; reflexivity) ltac:(vm_compute; lia)).
    rewrite buildQ_huge_forever. reflexivity.
Qed.

(** ** The oversized bypass of [BuildQ] *)

Section Oversized.

Lemma insertFiles_list (l : list (string * File)) (m0 : gmap string File) :
  NoDup l.*1 -> (forall k f, (k, f) ∈ l -> fid f = k) ->
  insertFiles m0 (map snd l) = list_to_map l ∪ m0.
Proof.
  revert m0. induction l as [|[k f] l IH]; intros m0 Hnd Hkeys; simpl.
  - by rewrite (left_id_L ∅ (∪)).
  - apply NoDup_cons in Hnd as [Hk Hnd].
    assert (Hf : fid f = k) by (apply (Hkeys k f); left).
    unfold insertFiles in *. simpl. rewrite Hf.
    rewrite IH; [|exact Hnd|intros k' f' Hin; apply (Hkeys k' f'); by right].
    rewrite <- insert_union_l.
    rewrite insert_union_r; [reflexivity|].
    by apply not_elem_of_list_to_map_1.
Qed.

Lemma filter_all (P : File -> Prop) `{!forall x, Decision (P x)} (l : list File) :
  Forall P l -> filter P l = l.
Proof.
  induction 1 as [|x l Hx Hl IH]; [done|].
  rewrite filter_cons_True by exact Hx. by rewrite IH.
Qed.

End Oversized.

(** C5: when the index has at least one changed file and every file in
    [ToUpdate] (keyed by its own ID, as [buildUpdate] inserts them) is
    larger than [MAX], [BuildQ] returns a queue of exactly one batch; that
    batch is the one [AddLgFiles] builds, and its members are exactly the
    files of [ToUpdate]. *)
Theorem BuildQ_oversized_single_batch (fuel : nat) (idx : SyncIndex) (uuid : nat) :
  ToUpdate idx <> ∅ ->
  map_Forall (fun k f => fid f = k /\ MAX < fsize f) (ToUpdate idx) ->
  exists b,
    BuildQ fuel idx uuid = Some (Some (mkQueue 1 [b])) /\
    b = (AddLgFiles (NewBatch uuid) (map snd (map_to_list (ToUpdate idx)))).1 /\
    Files b = ToUpdate idx.
Proof.
  intros Hne Hall.
  set (l := map_to_list (ToUpdate idx)).
  assert (Hkeys : forall k f, (k, f) ∈ l -> fid f = k /\ MAX < fsize f).
  { intros k f Hin. apply elem_of_map_to_list in Hin. exact (Hall k f Hin). }
  assert (Hsize : size (ToUpdate idx) <> 0%nat).
  { intros H0. apply map_size_empty_iff in H0. contradiction. }
  assert (Hlen : length (map snd l) <> 0%nat).
  { rewrite length_map. unfold l. rewrite length_map_to_list. exact Hsize. }
  assert (Hbig : Forall (fun f => MAX < fsize f) (map snd l)).
  { apply Forall_forall. intros f Hf.
    apply list_elem_of_In, in_map_iff in Hf as ([k f'] & <- & Hin).
    apply list_elem_of_In in Hin. exact (proj2 (Hkeys k f' Hin)). }
  unfold BuildQ, GetFiles.
  destruct (Nat.eqb_spec (size (ToUpdate idx)) 0) as [|_]; [contradiction|].
  fold l.
  destruct (Nat.eqb_spec (length (map snd l)) 0) as [|_]; [contradiction|].
  unfold wontFit. rewrite (filter_all _ _ Hbig), Nat.eqb_refl.
  unfold LargeFileQ, AddLgFiles.
  destruct (map snd l) as [|f0 fs] eqn:Hl; [done|].
  eexists. split; [reflexivity|]. split; [reflexivity|].
  change (insertFiles ∅ (f0 :: fs) = ToUpdate idx). rewrite <- Hl.
  rewrite insertFiles_list.
  - unfold l. rewrite list_to_map_to_list. apply (right_id_L ∅ (∪)).
  - apply NoDup_fst_map_to_list.
  - intros k f Hin. exact (proj1 (Hkeys k f Hin)).
Qed.

Lemma BuildQ_oversized_single_batch_witness :
  exists b,
    BuildQ 0 (setToUpdate (NewSyncIndex "u") (<[fid huge_file := huge_file]> ∅)) 7
      = Some (Some (mkQueue 1 [b])) /\
    b = (AddLgFiles (NewBatch 7) (map snd (map_to_list
          (ToUpdate (setToUpdate (NewSyncIndex "u") (<[fid huge_file := huge_file]> ∅)))))).1 /\
    Files b = ToUpdate (setToUpdate (NewSyncIndex "u") (<[fid huge_file := huge_file]> ∅)).
Proof.
  apply BuildQ_oversized_single_batch.
  - simpl. apply insert_non_empty.
  - simpl. apply map_Forall_insert_2; [|apply map_Forall_empty].
    split; [reflexivity|]. simpl. unfold MAX. lia.
Defined.

(** ** Building the sync index (pkg/service/dirs.go) *)

(** C6 (code_bug): on a root with two subdirectories holding one file each,
    [BuildSyncIndex] records only the file of the subdirectory the loop
    visits first, whichever of the two that is; the owner is the root's. *)
Theorem BuildSyncIndex_misses_second_subdir :
  (exists idx, BuildSyncIndex (two_branch_tree [file_x] [file_y]) = Some idx /\
     UserID idx = "owner" /\
     LastSync idx !! fid file_x = Some (flast file_x) /\ LastSync idx !! fid file_y = None) /\
  (exists idx, BuildSyncIndex (two_branch_tree [file_y] [file_x]) = Some idx /\
     UserID idx = "owner" /\
     LastSync idx !! fid file_y = Some (flast file_y) /\ LastSync idx !! fid file_x = None).
Proof.
  split; eexists; (split; [reflexivity|]); vm_compute; auto.
Qed.

(** ** Refreshing [ToUpdate] *)

Section Refresh.

Lemma walkU_visited (dir : Directory) :
  forall idx, walkU dir idx = (buildUpdate (visitedU dir) idx, true).
Proof.
  revert dir. fix IH 1. intros [id own fs ds] idx.
  cbn [walkU visitedU dFiles Dirs].
  unfold buildUpdate. rewrite fold_left_app.
  destruct ds as [|sub rest].
  - destruct fs; reflexivity.
  - rewrite (IH sub). destruct fs; reflexivity.
Qed.

Lemma updateFile_LastSync (idx : SyncIndex) (f : File) :
  LastSync (updateFile idx f) = LastSync idx.
Proof.
  unfold updateFile. destruct (LastSync idx !! fid f) as [t|]; [|done].
  destruct (0 <? time_Sub (flast f) t); reflexivity.
Qed.

Lemma updateFile_cases (idx : SyncIndex) (g : File) :
  (exists t, LastSync idx !! fid g = Some t /\ t < flast g /\
     updateFile idx g = setToUpdate idx (<[fid g := g]> (ToUpdate idx))) \/
  ((forall t, LastSync idx !! fid g = Some t -> flast g <= t) /\ updateFile idx g = idx).
Proof.
  unfold updateFile.
  destruct (LastSync idx !! fid g) as [t|] eqn:Hg.
  - destruct (0 <? time_Sub (flast g) t) eqn:Hlt.
    + apply Z.ltb_lt, (proj1 (time_Sub_pos (flast g) t)) in Hlt. left. exists t. auto.
    + apply Z.ltb_ge in Hlt.
      assert (Hnot : ~ (t < flast g)) by (rewrite <- time_Sub_pos; lia).
      right. split; [|done]. intros t' [= <-]. lia.
  - right. split; [intros t' [=]|done].
Qed.

Lemma buildUpdate_spec (l : list File) :
  forall idx, let idx' := buildUpdate l idx in
  LastSync idx' = LastSync idx /\
  (forall k, is_Some (ToUpdate idx' !! k) <->
     is_Some (ToUpdate idx !! k) \/
     exists f t, f ∈ l /\ fid f = k /\ LastSync idx !! k = Some t /\ t < flast f) /\
  (forall k f, ToUpdate idx' !! k = Some f ->
     ToUpdate idx !! k = Some f \/
     (f ∈ l /\ fid f = k /\ exists t, LastSync idx !! k = Some t /\ t < flast f)) /\
  (forall k, LastSync idx !! k = None -> ToUpdate idx' !! k = ToUpdate idx !! k).
Proof.
  unfold buildUpdate.
  induction l as [|g l IH]; intros idx; simpl.
  - split; [done|]. split; [|split; [auto|done]].
    intros k. split; [auto|]. intros [H|(f & t & Hf & _)]; [exact H|].
    apply elem_of_nil in Hf. contradiction.
  - destruct (IH (updateFile idx g)) as (HL & Hdom & Hval & Hnew).
    rewrite updateFile_LastSync in HL, Hdom, Hval, Hnew.
    split; [exact HL|].
    destruct (updateFile_cases idx g) as [(tg & Hg & Hlt & Hu)|(Hno & Hu)];
      rewrite Hu in Hdom, Hval, Hnew |- *; simpl in Hdom, Hval, Hnew |- *.
    + split; [|split].
      * intros k. rewrite Hdom.
        destruct (decide (k = fid g)) as [->|Hne].
        -- rewrite lookup_insert_eq.
           split; [intros _; right; exists g, tg; split; [left|]; auto|].
           intros _; left; eauto.
        -- rewrite lookup_insert_ne by congruence.
           split; (intros [H|(f & t & Hf & Hk & Ht & Hft)]; [by left|]); right.
           ++ exists f, t. split; [by right|auto].
           ++ exists f, t. apply elem_of_cons in Hf as [->|Hf]; [congruence|].
              auto.
      * intros k f Hk. apply Hval in Hk as [Hk|(Hf & Hfk & t & Ht & Hft)].
        -- destruct (decide (k = fid g)) as [->|Hne].
           ++ rewrite lookup_insert_eq in Hk. injection Hk as <-.
              right. split; [left|]. split; [done|]. eauto.
           ++ rewrite lookup_insert_ne in Hk by congruence. by left.
        -- right. split; [by right|eauto].
      * intros k Hk. rewrite Hnew by exact Hk.
        rewrite lookup_insert_ne; [done|]. intros Heq. rewrite <- Heq, Hg in Hk. discriminate.
    + split; [|split; [|exact Hnew]].
      * intros k. rewrite Hdom.
        split; (intros [H|(f & t & Hf & Hk & Ht & Hft)]; [by left|]); right.
        -- exists f, t. split; [by right|auto].
        -- exists f, t. apply elem_of_cons in Hf as [->|Hf]; [|auto].
           specialize (Hno t). rewrite Hk in Hno. specialize (Hno Ht). lia.
      * intros k f Hk. apply Hval in Hk as [Hk|(Hf & Hfk & t & Ht & Hft)]; [by left|].
        right. split; [by right|eauto].
Qed.

End Refresh.

(** C7: [BuildToUpdate] returns the index with [LastSync] unchanged; a key
    is in the new [ToUpdate] exactly when it was there before or some file
    visited by the walk has that ID, a baseline in [LastSync], and a live
    timestamp strictly later than the baseline; every entry it adds is such
    a visited file; and the entry of an ID absent from [LastSync] (a new
    file) is never changed by the pass. *)
Theorem BuildToUpdate_inserts_iff (root : Directory) (idx : SyncIndex) :
  exists idx', BuildToUpdate root idx = Some idx' /\
  LastSync idx' = LastSync idx /\
  (forall k, is_Some (ToUpdate idx' !! k) <->
     is_Some (ToUpdate idx !! k) \/
     exists f t, f ∈ visitedU root /\ fid f = k /\ LastSync idx !! k = Some t /\
                 t < flast f) /\
  (forall k f, ToUpdate idx' !! k = Some f ->
     ToUpdate idx !! k = Some f \/
     (f ∈ visitedU root /\ fid f = k /\
      exists t, LastSync idx !! k = Some t /\ t < flast f)) /\
  (forall k, LastSync idx !! k = None -> ToUpdate idx' !! k = ToUpdate idx !! k).
Proof.
  exists (buildUpdate (visitedU root) idx).
  unfold BuildToUpdate. rewrite walkU_visited.
  split; [reflexivity|]. apply buildUpdate_spec.
Qed.

(** ** [Total] of a batch *)

(** C8 (code_bug): [AddLgFiles] stores the files but leaves [Total] alone,
    so the one-batch queue of [LargeFileQ] holds a batch with one member
    and [Total = 0]. *)
Theorem AddLgFiles_leaves_Total :
  Total (AddLgFiles (NewBatch 0) [huge_file]).1 = 0 /\
  size (Files (AddLgFiles (NewBatch 0) [huge_file]).1) = 1%nat /\
  map (fun b => (Total b, size (Files b))) (QItems (LargeFileQ 0 [huge_file])) = [(0, 1%nat)].
Proof. vm_compute. auto. Qed.

(** ** [Prune] and [GetLargeFiles] *)

Section Partition.

Lemma filter_ext_in (P Q : File -> Prop) `{!forall x, Decision (P x)}
      `{!forall x, Decision (Q x)} (l : list File) :
  (forall x, x ∈ l -> P x <-> Q x) -> filter P l = filter Q l.
Proof.
  induction l as [|x l IH]; intros Hiff; [done|].
  assert (Hx : P x <-> Q x) by (apply Hiff; left).
  assert (Hl : forall y, y ∈ l -> P y <-> Q y) by (intros y Hy; apply Hiff; by right).
  destruct (decide (P x)) as [Hp|Hp].
  - rewrite !filter_cons_True by tauto. by rewrite IH.
  - rewrite !filter_cons_False by tauto. by rewrite IH.
Qed.

Lemma filter_none (P : File -> Prop) `{!forall x, Decision (P x)} (l : list File) :
  Forall (fun x => ~ P x) l -> filter P l = [].
Proof.
  induction 1 as [|x l Hx Hl IH]; [done|].
  rewrite filter_cons_False by exact Hx. exact IH.
Qed.

Lemma NoDup_map_fid (l : list File) (x y : File) :
  NoDup (map fid l) -> x ∈ l -> y ∈ l -> fid x = fid y -> x = y.
Proof.
  induction l as [|z l IH]; intros Hnd Hx Hy Hxy; [by apply elem_of_nil in Hx|].
  simpl in Hnd. apply NoDup_cons in Hnd as [Hz Hnd].
  apply elem_of_cons in Hx as [->|Hx]; apply elem_of_cons in Hy as [->|Hy]; auto.
  - exfalso. apply Hz. rewrite Hxy. apply list_elem_of_In, in_map, list_elem_of_In, Hy.
  - exfalso. apply Hz. rewrite <- Hxy. apply list_elem_of_In, in_map, list_elem_of_In, Hx.
Qed.

End Partition.

(** C9 (as amended): for a list of files with distinct IDs, [GetLargeFiles]
    keeps, in order, exactly the files larger than [MAX], [Prune] keeps, in
    order, exactly the files of size at most [MAX] (a file of size exactly
    [MAX] is not oversized), and together they are a rearrangement of the
    input, so each file is in exactly one of the two parts. *)
Theorem Prune_GetLargeFiles_partition (files : list File) :
  NoDup (map fid files) ->
  GetLargeFiles files = filter (fun f => MAX < fsize f) files /\
  Prune files = filter (fun f => fsize f <= MAX) files /\
  files ≡ₚ Prune files ++ GetLargeFiles files.
Proof.
  intros Hnd.
  assert (Hlg : GetLargeFiles files = filter (fun f => MAX < fsize f) files)
    by (destruct files; reflexivity).
  assert (Hpr : Prune files = filter (fun f => fsize f <= MAX) files).
  { unfold Prune, Diff. rewrite Hlg.
    rewrite (filter_none (fun f => fid f ∉ map fid files)).
    2:{ apply Forall_forall. intros f Hf Hn. apply Hn.
        apply list_elem_of_filter in Hf as [_ Hf].
        apply list_elem_of_In, in_map, list_elem_of_In, Hf. }
    rewrite app_nil_r.
    apply filter_ext_in. intros x Hx. split.
    - intros Hn. apply Z.nlt_ge. intros Hbig. apply Hn.
      apply list_elem_of_In, in_map, list_elem_of_In.
      by apply list_elem_of_filter.
    - intros Hsmall Hin.
      apply list_elem_of_In, in_map_iff in Hin as (y & Hy & Hyin).
      apply list_elem_of_In, list_elem_of_filter in Hyin as [Hybig Hyin].
      rewrite (NoDup_map_fid files y x Hnd Hyin Hx Hy) in Hybig. lia. }
  split; [exact Hlg|]. split; [exact Hpr|].
  rewrite Hpr, Hlg.
  rewrite (list_filter_iff (fun f => fsize f <= MAX) (fun f => ~ (MAX < fsize f)))
    by (intros; lia).
  rewrite (Permutation_app_comm _ _).
  symmetry. apply filter_app_complement.
Qed.

(** Against C9 as stated: a file of size exactly [MAX] is not in the
    oversized part; it is in the pruned part. *)
Lemma GetLargeFiles_excludes_MAX :
  GetLargeFiles [max_file] = [] /\ Prune [max_file] = [max_file].
Proof. vm_compute. auto. Qed.

Lemma Prune_GetLargeFiles_partition_witness :
  GetLargeFiles [small_file; huge_file; max_file]
    = filter (fun f => MAX < fsize f) [small_file; huge_file; max_file] /\
  Prune [small_file; huge_file; max_file]
    = filter (fun f => fsize f <= MAX) [small_file; huge_file; max_file] /\
  [small_file; huge_file; max_file]
    ≡ₚ Prune [small_file; huge_file; max_file] ++ GetLargeFiles [small_file; huge_file; max_file].
Proof.
  apply Prune_GetLargeFiles_partition. vm_compute. repeat constructor; set_solver.
Defined.

(** ** The batch queue (pkg/service/queue.go) *)

Lemma runQ_total (ops : list QOp) :
  forall q, QTotal q = Z.of_nat (length (QItems q)) ->
  Z.of_nat (length (QItems q) + length ops) < 2 ^ 63 ->
  QTotal (runQ q ops) = Z.of_nat (length (QItems (runQ q ops))).
Proof.
  unfold runQ.
  induction ops as [|op ops IH]; intros [t items] Hq Hb; simpl in *; [exact Hq|].
  apply IH.
  - destruct op as [b|]; simpl.
    + rewrite length_app. simpl. rewrite i64_id; lia.
    + unfold Dequeue. destruct items as [|item rest]; simpl in *; [exact Hq|].
      rewrite i64_id; lia.
  - destruct op as [b|]; simpl.
    + rewrite length_app. simpl. lia.
    + unfold Dequeue. destruct items as [|item rest]; simpl in *; lia.
Qed.

(** C10: from [NewQ], after any sequence of [Enqueue] and [Dequeue] calls
    (fewer than [2^63] of them, so the [int] counter cannot wrap), [Total]
    equals the length of the batch slice; and [Dequeue] on a queue whose
    slice is empty returns a non-nil error, no batch, and the queue
    unchanged. *)
Theorem queue_Total_tracks_length (ops : list QOp) :
  Z.of_nat (length ops) < 2 ^ 63 ->
  QTotal (runQ NewQ ops) = Z.of_nat (length (QItems (runQ NewQ ops))) /\
  (forall q, QItems q = [] -> exists err, Dequeue q = (q, None, Some err)).
Proof.
  intros Hops. split.
  - apply runQ_total; simpl; [reflexivity | lia].
  - intros q Hq. unfold Dequeue. rewrite Hq. eauto.
Qed.

Lemma queue_Total_tracks_length_witness :
  QTotal (runQ NewQ [OpEnqueue (NewBatch 0); OpDequeue; OpDequeue; OpEnqueue (NewBatch 1)])
  = Z.of_nat (length (QItems (runQ NewQ
      [OpEnqueue (NewBatch 0); OpDequeue; OpDequeue; OpEnqueue (NewBatch 1)]))) /\
  (forall q, QItems q = [] -> exists err, Dequeue q = (q, None, Some err)).
Proof. apply queue_Total_tracks_length. simpl. lia. Defined.

(** ** Further properties of the code *)

(** *** Helpers *)

Section Helpers.

Lemma find_app_split {A} (P : A -> bool) (l1 l2 : list A) :
  find P (l1 ++ l2) = match find P l1 with Some x => Some x | None => find P l2 end.
Proof.
  induction l1 as [|x l1 IH]; simpl; [done|].
  destruct (P x); [done|exact IH].
Qed.

Lemma delete_all (ks : list string) :
  forall m : gmap string File, (forall k, is_Some (m !! k) -> k ∈ ks) ->
  fold_left (fun m key => delete key m) ks m = ∅.
Proof.
  induction ks as [|k ks IH]; intros m Hm; simpl.
  - apply map_eq. intros j. rewrite lookup_empty.
    destruct (m !! j) eqn:Hj; [|done].
    exfalso. apply (elem_of_nil j), Hm. rewrite Hj. eauto.
  - apply IH. intros j Hj.
    destruct (decide (j = k)) as [->|Hne].
    + rewrite lookup_delete_eq in Hj. by destruct Hj.
    + rewrite lookup_delete_ne in Hj by congruence.
      apply Hm in Hj. apply elem_of_cons in Hj as [->|Hj]; [congruence|exact Hj].
Qed.

Lemma Reset_eq (s : SyncIndex) : Reset s = setToUpdate s ∅.
Proof.
  unfold Reset. destruct (Nat.eqb_spec (size (ToUpdate s)) 0) as [H0|H0].
  - apply map_size_empty_iff in H0.
    destruct s as [u fp sy ls tu]; simpl in *. unfold setToUpdate. simpl. by rewrite H0.
  - f_equal. apply delete_all. intros k [f Hk].
    rewrite list_elem_of_In, in_map_iff. exists (k, f). split; [done|].
    apply list_elem_of_In, elem_of_map_to_list. exact Hk.
Qed.

Lemma buildSync_spec (fs : list File) :
  forall idx, ToUpdate (buildSync fs idx) = ToUpdate idx /\
  UserID (buildSync fs idx) = UserID idx /\
  forall k, LastSync (buildSync fs idx) !! k =
    match LastSync idx !! k with
    | Some t => Some t
    | None => flast <$> find (fun f => bool_decide (fid f = k)) fs
    end.
Proof.
  unfold buildSync.
  induction fs as [|f fs IH]; intros idx; simpl.
  - split; [done|split; [done|]]. intros k. by destruct (LastSync idx !! k).
  - destruct (LastSync idx !! fid f) as [t0|] eqn:Hf.
    + destruct (IH idx) as (HT & HU & HL). split; [done|split; [done|]].
      intros k. rewrite HL. destruct (LastSync idx !! k) eqn:Hk; [done|].
      case_bool_decide as Hfk; [subst; congruence|done].
    + destruct (IH (setLastSync idx (<[fid f := flast f]> (LastSync idx))))
        as (HT & HU & HL).
      split; [exact HT|split; [exact HU|]].
      intros k. rewrite HL. simpl.
      destruct (decide (k = fid f)) as [->|Hne].
      * rewrite lookup_insert_eq, Hf. by rewrite bool_decide_eq_true_2.
      * rewrite lookup_insert_ne by congruence.
        destruct (LastSync idx !! k); [done|].
        by rewrite bool_decide_eq_false_2 by congruence.
Qed.

Lemma walkS_visited (dir : Directory) :
  forall idx, walkS dir idx = (buildSync (visitedU dir) idx, true).
Proof.
  revert dir. fix IH 1. intros [id own fs ds] idx.
  cbn [walkS visitedU dFiles Dirs].
  unfold buildSync. rewrite fold_left_app.
  destruct ds as [|sub rest].
  - destruct fs; reflexivity.
  - rewrite (IH sub). destruct fs; reflexivity.
Qed.

Lemma insertAbsent_spec (fs : list File) :
  forall (m : gmap string File) k,
  fold_left (fun files file =>
               match files !! fid file with
               | Some _ => files
               | None => <[fid file := file]> files
               end) fs m !! k =
  match m !! k with
  | Some f => Some f
  | None => find (fun f => bool_decide (fid f = k)) fs
  end.
Proof.
  induction fs as [|f fs IH]; intros m k; simpl; [by destruct (m !! k)|].
  rewrite IH. destruct (m !! fid f) eqn:Hf.
  - destruct (m !! k) eqn:Hk; [done|].
    case_bool_decide as Hfk; [subst; congruence|done].
  - destruct (decide (k = fid f)) as [->|Hne].
    + rewrite lookup_insert_eq, Hf. by rewrite bool_decide_eq_true_2.
    + rewrite lookup_insert_ne by congruence.
      destruct (m !! k); [done|].
      by rewrite bool_decide_eq_false_2 by congruence.
Qed.

Lemma walkFs_spec (dir : Directory) :
  forall m k, walkFs dir m !! k =
  match m !! k with
  | Some f => Some f
  | None => find (fun f => bool_decide (fid f = k)) (visitedU dir)
  end.
Proof.
  revert dir. fix IH 1. intros [id own fs ds] m k.
  cbn [walkFs visitedU dFiles Dirs].
  destruct ds as [|sub rest].
  - rewrite insertAbsent_spec, app_nil_r. reflexivity.
  - rewrite (IH sub), insertAbsent_spec, find_app_split.
    destruct (m !! k); [done|].
    destruct (find _ fs); done.
Qed.

Section DirInd.

Variable P : Directory -> Prop.
Hypothesis Hdir : forall id own fs ds, Forall P ds -> P (mkDir id own fs ds).

Lemma Directory_ind' : forall d, P d.
Proof.
  fix IH 1. intros [id own fs ds]. apply Hdir.
  revert ds. fix IH2 1. intros [|d ds].
  - constructor.
  - constructor; [apply IH|apply IH2].
Qed.

End DirInd.

Lemma walkF_find (dir : Directory) :
  forall k, walkF dir k = find (fun f => bool_decide (fid f = k)) (treeFiles dir).
Proof.
  induction dir as [id own fs ds Hall] using Directory_ind'. intros k.
  cbn [walkF treeFiles dFiles Dirs]. rewrite find_app_split.
  destruct (find _ fs); [done|].
  destruct (Nat.eqb_spec (length ds) 0) as [H0|H0];
    [by apply nil_length_inv in H0 as ->|clear H0].
  induction Hall as [|d' l' Hd Hl IHl]; [done|].
  simpl. rewrite Hd, find_app_split.
  destruct (find _ (treeFiles d')); [done|exact IHl].
Qed.

Lemma in_treeDirs (ds : list Directory) (x : Directory) :
  In x (flat_map (fun sub => sub :: treeDirs sub) ds) <->
  In x ds \/ exists sub, In sub ds /\ In x (treeDirs sub).
Proof.
  rewrite in_flat_map. split.
  - intros (sub & Hs & [->|Hx]); [by left|right; eauto].
  - intros [Hx|(sub & Hs & Hx)]; [exists x; split; [done|by left]|].
    exists sub. split; [done|by right].
Qed.

Lemma walkD_sound_complete (dir : Directory) :
  forall k,
  (forall d, walkD dir k = Some d -> In d (treeDirs dir) /\ dID d = k) /\
  ((exists d, In d (treeDirs dir) /\ dID d = k) -> is_Some (walkD dir k)).
Proof.
  induction dir as [id own fs ds Hall] using Directory_ind'. intros k.
  cbn [walkD treeDirs Dirs].
  destruct (Nat.eqb_spec (length ds) 0) as [H0|H0];
    [apply nil_length_inv in H0 as ->; simpl; split; [discriminate|intros (? & [] & _)]|clear H0].
  destruct (find (fun d => bool_decide (dID d = k)) ds) as [x|] eqn:Hfind.
  - apply find_some in Hfind as [Hx Hk]. apply bool_decide_eq_true in Hk.
    split; [intros d [= <-]; split; [apply in_treeDirs; by left|done]|eauto].
  - pose proof (find_none _ _ Hfind) as Hno.
    assert (Hdirect : forall x, In x ds -> dID x <> k).
    { intros x Hx Heq. specialize (Hno x Hx). simpl in Hno.
      rewrite bool_decide_eq_false in Hno. contradiction. }
    clear Hfind Hno.
    induction Hall as [|d' l' Hd Hl IHl]; [simpl; split; [discriminate|intros (? & [] & _)]|].
    simpl. destruct (Hd k) as [Hds Hdc].
    assert (Hdirect' : forall x, In x l' -> dID x <> k) by (intros x Hx; apply Hdirect; by right).
    destruct (IHl Hdirect') as [IHs IHc].
    destruct (walkD d' k) as [sd|] eqn:Hw.
    + split; [|eauto]. intros d [= <-].
      destruct (Hds sd eq_refl) as [Hin Hk]. split; [|done].
      right. apply in_app_iff. by left.
    + split.
      * intros d Hd'. destruct (IHs d Hd') as [Hin Hk]. split; [|done].
        right. apply in_app_iff. by right.
      * intros (d & [Heq|Hin] & Hk); [exfalso; apply (Hdirect d'); [by left|congruence]|].
        apply in_app_iff in Hin as [Hin|Hin].
        -- destruct Hdc as [y Hy]; [eauto|discriminate].
        -- apply IHc. eauto.
Qed.

Lemma Enqueue_all (bs : list Batch) :
  forall t l, 0 <= t -> t + Z.of_nat (length bs) < 2 ^ 63 ->
  fold_left Enqueue bs (mkQueue t l) = mkQueue (t + Z.of_nat (length bs)) (l ++ bs).
Proof.
  induction bs as [|b bs IH]; intros t l Ht Hb; simpl.
  - by rewrite Z.add_0_r, app_nil_r.
  - change (Enqueue (mkQueue t l) b) with (mkQueue (i64 (t + 1)) (l ++ [b])).
    simpl in Hb. rewrite i64_id by lia.
    rewrite IH by lia. rewrite <- app_assoc. f_equal. lia.
Qed.

Lemma dequeue_prefix (l : list Batch) :
  forall t r, Z.of_nat (length l) <= t < 2 ^ 63 ->
  dequeueN (length l) (mkQueue t (l ++ r)) = (mkQueue (t - Z.of_nat (length l)) r, map Some l).
Proof.
  induction l as [|x l IH]; intros t r Ht; simpl.
  - by rewrite Z.sub_0_r.
  - try unfold Dequeue. simpl. rewrite i64_id by lia.
    simpl in Ht. rewrite IH by lia. f_equal. f_equal. lia.
Qed.

Lemma Enqueue_items (bs : list Batch) :
  forall q, QItems (fold_left Enqueue bs q) = QItems q ++ bs.
Proof.
  induction bs as [|b bs IH]; intros q; simpl; [by rewrite app_nil_r|].
  rewrite IH. simpl. by rewrite <- app_assoc.
Qed.

Lemma TotalFiles_eq (q : Queue) :
  TotalFiles q = fold_left (fun total batch => i64 (total + Total batch)) (QItems q) 0.
Proof. unfold TotalFiles. by destruct (QItems q). Qed.

Lemma sum_i64 (bs : list Batch) :
  forall acc, 0 <= acc -> Forall (fun b => 0 <= Total b) bs ->
  acc + sumTotals bs < 2 ^ 63 ->
  fold_left (fun total batch => i64 (total + Total batch)) bs acc = acc + sumTotals bs.
Proof.
  induction bs as [|b bs IH]; intros acc Hacc Hall Hb; simpl in *;
    [unfold sumTotals; simpl; lia|].
  change (sumTotals (b :: bs)) with (Total b + sumTotals bs) in *.
  apply Forall_cons in Hall as [Hb0 Hall].
  assert (Hs : 0 <= sumTotals bs).
  { clear -Hall. induction Hall as [|x l Hx _ IHl]; [unfold sumTotals; simpl; lia|].
    change (sumTotals (x :: l)) with (Total x + sumTotals l). lia. }
  rewrite i64_id by lia. rewrite IH; [lia|lia|exact Hall|lia].
Qed.

Lemma addLoop_dups (fs : list File) :
  forall b ad na ig, Forall (fun f => HasFile b (fid f) = true) fs ->
  addLoop b fs ad na ig = (b, ad, na, ig ++ fs).
Proof.
  induction fs as [|f fs IH]; intros b ad na ig Hall; simpl; [by rewrite app_nil_r|].
  apply Forall_cons in Hall as [Hf Hall]. rewrite Hf. simpl.
  rewrite IH by exact Hall. by rewrite <- app_assoc.
Qed.

Lemma addLoop_Total (fs : list File) :
  forall b ad na ig, 0 <= Total b -> Total b + Z.of_nat (length fs) < 2 ^ 63 ->
  Total (addLoop b fs ad na ig).1.1.1 =
    Total b + Z.of_nat (length (addLoop b fs ad na ig).1.1.2) - Z.of_nat (length ad).
Proof.
  induction fs as [|f fs IH]; intros b ad na ig Ht Hb; simpl in *; [lia|].
  destruct (HasFile b (fid f)); simpl; [apply IH; lia|].
  destruct (0 <=? i64 (Cap b - fsize f)); [|apply IH; lia].
  destruct (i64 (Cap b - fsize f) =? 0); simpl.
  - rewrite i64_id by lia. rewrite length_app. simpl. lia.
  - rewrite IH; simpl; rewrite ?i64_id by lia; try lia.
    rewrite length_app. simpl. lia.
Qed.

Lemma insertFiles_size (A : list File) :
  forall m, Forall (fun f => m !! fid f = None) A -> NoDup (map fid A) ->
  size (insertFiles m A) = (size m + length A)%nat.
Proof.
  unfold insertFiles.
  induction A as [|a A IH]; intros m Hfresh Hnd; simpl; [lia|].
  apply Forall_cons in Hfresh as [Ha Hfresh]. simpl in Hnd.
  apply NoDup_cons in Hnd as [Hnot Hnd].
  rewrite IH; [rewrite map_size_insert_None by exact Ha; lia| |exact Hnd].
  apply Forall_forall. intros g Hg.
  rewrite lookup_insert_ne.
  - exact (proj1 (Forall_forall (fun f => m !! fid f = None) A) Hfresh g Hg).
  - intros Heq. apply Hnot. rewrite Heq.
    apply list_elem_of_In, in_map, list_elem_of_In, Hg.
Qed.

Lemma AddFiles_Total_loop (b : Batch) (fs : list File) :
  Total (AddFiles b fs).1.1 = Total (addLoop b fs [] [] []).1.1.1.
Proof.
  unfold AddFiles.
  destruct (addLoop b fs [] [] []) as [[[b' ad] na] ig]. simpl.
  destruct (Nat.eqb _ _); [done|].
  destruct (_ && _); [done|].
  destruct (_ && _); done.
Qed.

Lemma AddFiles_status0_nil (b b' : Batch) (f lo : list File) :
  AddFiles b f = (b', lo, 0) -> lo = [].
Proof.
  intros Heq. pose proof (AddFiles_cases b f) as Hc. rewrite Heq in Hc.
  cbn [fst snd] in Hc.
  destruct (addLoop b f [] [] []) as [[[b1 ad] na] ig].
  unfold Success, CapMaxed, UnderCap in Hc.
  destruct Hc as (_ & _ & [(? & _)|[(? & _)|[(? & _)|(_ & ? & _)]]]); [lia..|done].
Qed.

Lemma Compare_lookup (orig new : SyncIndex) :
  DUserID (Compare orig new) = UserID orig /\
  forall k,
  DLastSync (Compare orig new) !! k =
    match LastSync orig !! k with Some _ => LastSync new !! k | None => None end /\
  DToUpdate (Compare orig new) !! k =
    match LastSync orig !! k, LastSync new !! k with
    | Some t0, Some t1 => if t1 <? t0 then Some None else None
    | _, _ => None
    end.
Proof.
  unfold Compare.
  apply (map_fold_weak_ind (fun r m =>
    DUserID r = UserID orig /\
    forall k,
    DLastSync r !! k = match LastSync orig !! k with Some _ => m !! k | None => None end /\
    DToUpdate r !! k =
      match LastSync orig !! k, m !! k with
      | Some t0, Some t1 => if t1 <? t0 then Some None else None
      | _, _ => None
      end)).
  - split; [done|]. intros k. simpl. rewrite !lookup_empty.
    by destruct (LastSync orig !! k).
  - intros i x m r Hi [HU IH]. unfold HasFileIdx.
    destruct (LastSync orig !! i) as [t0|] eqn:Ho; simpl.
    + destruct (0 <? time_Sub t0 x) eqn:Hlt; simpl; (split; [done|]); intros k;
        destruct (IH k) as [IH1 IH2];
        (destruct (decide (k = i)) as [->|Hne];
         [rewrite Ho; rewrite !lookup_insert_eq|
          rewrite !lookup_insert_ne by congruence; done]).
      * apply Z.ltb_lt, (proj1 (time_Sub_pos t0 x)) in Hlt.
        split; [done|]. destruct (Z.ltb_spec x t0); [done|lia].
      * apply Z.ltb_ge in Hlt.
        assert (Hnot : ~ (x < t0)) by (rewrite <- time_Sub_pos; lia).
        split; [done|]. rewrite IH2, Ho, Hi.
        destruct (Z.ltb_spec x t0); [lia|done].
    + split; [done|]. intros k. destruct (IH k) as [IH1 IH2].
      destruct (decide (k = i)) as [->|Hne].
      * by rewrite IH1, IH2, Ho.
      * by rewrite lookup_insert_ne by congruence.
Qed.

End Helpers.

(** *** Sync index operations (pkg/service/sync.go) *)

(** [Reset] empties [ToUpdate] and leaves the other fields alone, whatever
    the index held; afterwards [IsMapped] is false, [GetFiles] returns the
    nil slice and [BuildQ] returns the nil queue. *)
Theorem Reset_clears_ToUpdate (s : SyncIndex) (fuel uuid : nat) :
  Reset s = setToUpdate s ∅ /\ IsMapped (Reset s) = false /\
  GetFiles (Reset s) = None /\ BuildQ fuel (Reset s) uuid = Some None.
Proof.
  rewrite Reset_eq. split; [done|].
  unfold IsMapped, BuildQ, GetFiles. simpl. rewrite map_size_empty.
  split; [by destruct (Nat.eqb (size (LastSync s)) 0)|done].
Qed.

(** [GetFiles] returns nil exactly when [ToUpdate] is empty; otherwise the
    slice it returns is non-empty, has one element per entry of [ToUpdate]
    and holds exactly its values. So the [len(files) == 0] branch of
    [BuildQ] is never taken. *)
Theorem GetFiles_values (s : SyncIndex) :
  (GetFiles s = None <-> ToUpdate s = ∅) /\
  (forall l, GetFiles s = Some l ->
     l <> [] /\ length l = size (ToUpdate s) /\
     (forall f, f ∈ l <-> exists k, ToUpdate s !! k = Some f)).
Proof.
  unfold GetFiles. destruct (Nat.eqb_spec (size (ToUpdate s)) 0) as [H0|H0].
  - split; [split; [intros _; by apply map_size_empty_iff|done]|discriminate].
  - split.
    + split; [discriminate|]. intros H. rewrite H, map_size_empty in H0. done.
    + intros l [= <-]. split; [|split].
      * intros Hnil. apply (f_equal length) in Hnil.
        rewrite !length_map, length_map_to_list in Hnil. simpl in Hnil. done.
      * by rewrite !length_map, length_map_to_list.
      * intros f. rewrite list_elem_of_In, in_map_iff. split.
        -- intros ([k f'] & Hf & Hin). simpl in Hf. subst f'. exists k.
           apply elem_of_map_to_list, list_elem_of_In. exact Hin.
        -- intros [k Hk]. exists (k, f). split; [done|].
           apply list_elem_of_In, elem_of_map_to_list. exact Hk.
Qed.

(** [wontFit] holds exactly when every file is larger than the limit; in
    particular it holds on the empty slice. *)
Theorem wontFit_all_exceed (files : list File) (limit : Z) :
  wontFit files limit = true <-> Forall (fun f => limit < fsize f) files.
Proof.
  unfold wontFit. rewrite Nat.eqb_eq.
  induction files as [|f files IH]; simpl.
  - split; [intros _; exact (List.Forall_nil _)|done].
  - rewrite Forall_cons. rewrite filter_cons.
    destruct (decide (limit < fsize f)) as [Hf|Hf]; simpl.
    + rewrite <- IH. split; [intros [=]; auto|intros [_ ->]; done].
    + pose proof (length_filter (fun f => limit < fsize f) files).
      split; [lia|intros [? _]; contradiction].
Qed.

(** [Compare] keeps the owner of [orig]; for a file ID present in both
    indexes it records the time of [new] (also when the time in [orig] is
    later), and puts a nil [ToUpdate] entry exactly when the time in [orig]
    is strictly later than the one in [new]; IDs missing from [orig] get no
    entry at all. *)
Theorem Compare_spec (orig new : SyncIndex) (k : string) :
  DUserID (Compare orig new) = UserID orig /\
  DLastSync (Compare orig new) !! k =
    match LastSync orig !! k with Some _ => LastSync new !! k | None => None end /\
  DToUpdate (Compare orig new) !! k =
    match LastSync orig !! k, LastSync new !! k with
    | Some t0, Some t1 => if t1 <? t0 then Some None else None
    | _, _ => None
    end.
Proof.
  destruct (Compare_lookup orig new) as [HU Hk].
  split; [exact HU|]. apply Hk.
Qed.

(** *** Walking a directory tree (pkg/service/dirs.go) *)

(** [buildSync] never overwrites an entry of [LastSync]: a file ID already
    there keeps its time, a new one gets the time of the first file with
    that ID; [ToUpdate] and the owner are untouched. *)
Theorem buildSync_keeps_first (fs : list File) (idx : SyncIndex) (k : string) :
  LastSync (buildSync fs idx) !! k =
    match LastSync idx !! k with
    | Some t => Some t
    | None => flast <$> find (fun f => bool_decide (fid f = k)) fs
    end /\
  ToUpdate (buildSync fs idx) = ToUpdate idx /\ UserID (buildSync fs idx) = UserID idx.
Proof.
  destruct (buildSync_spec fs idx) as (HT & HU & HL). auto.
Qed.

(** [BuildSyncIndex] always returns an index: owned by the root's owner,
    with an empty [ToUpdate] (so [IsMapped] is false), whose [LastSync]
    maps each ID to the time of the first file with that ID along the path
    the walk takes. *)
Theorem BuildSyncIndex_spec (root : Directory) :
  exists idx, BuildSyncIndex root = Some idx /\
  UserID idx = OwnerID root /\ ToUpdate idx = ∅ /\ IsMapped idx = false /\
  forall k, LastSync idx !! k = flast <$> find (fun f => bool_decide (fid f = k)) (visitedU root).
Proof.
  exists (buildSync (visitedU root) (NewSyncIndex (OwnerID root))).
  unfold BuildSyncIndex. rewrite walkS_visited. split; [done|].
  destruct (buildSync_spec (visitedU root) (NewSyncIndex (OwnerID root))) as (HT & HU & HL).
  simpl in HT, HU. split; [done|]. split; [done|]. split.
  - unfold IsMapped. rewrite HT, map_size_empty.
    by destruct (Nat.eqb (size (LastSync _)) 0).
  - intros k. rewrite HL. simpl. by rewrite lookup_empty.
Qed.

(** [WalkFs] maps each file ID to the first file with that ID along the
    path of first subdirectories, the same path [walkS] takes: a file in a
    second subdirectory is never collected. *)
Theorem WalkFs_first_path (root : Directory) (k : string) :
  WalkFs root !! k = find (fun f => bool_decide (fid f = k)) (visitedU root).
Proof.
  unfold WalkFs. rewrite walkFs_spec. by rewrite lookup_empty.
Qed.


(** [walkF] searches the whole tree, depth first: it returns the first
    file with the ID among the directory's files, then those of each
    subdirectory tree in turn; so it finds a file whenever one with that
    ID is anywhere in the tree. *)
Theorem walkF_whole_tree (dir : Directory) (k : string) :
  walkF dir k = find (fun f => bool_decide (fid f = k)) (treeFiles dir).
Proof. apply walkF_find. Qed.

(** [walkD] returns only a proper subdirectory with the requested ID, and
    finds one whenever the tree below the directory has one. *)
Theorem walkD_finds_descendant (dir : Directory) (k : string) :
  (forall d, walkD dir k = Some d -> In d (treeDirs dir) /\ dID d = k) /\
  ((exists d, In d (treeDirs dir) /\ dID d = k) -> is_Some (walkD dir k)).
Proof. apply walkD_sound_complete. Qed.

(** *** The batch queue (pkg/service/queue.go) *)

(** [Dequeue] hands the batches back in the order they were enqueued, and
    the queue ends empty with [Total = 0]. *)
Theorem queue_fifo (bs : list Batch) :
  Z.of_nat (length bs) < 2 ^ 63 ->
  dequeueN (length bs) (fold_left Enqueue bs NewQ) = (NewQ, map Some bs).
Proof.
  intros Hb. unfold NewQ. rewrite Enqueue_all by lia.
  replace ([] ++ bs) with (bs ++ []) by (by rewrite app_nil_r).
  rewrite dequeue_prefix by lia. f_equal. f_equal. lia.
Qed.

Lemma queue_fifo_witness :
  Z.of_nat (length [NewBatch 0; NewBatch 1; NewBatch 2]) < 2 ^ 63 /\
  dequeueN (length [NewBatch 0; NewBatch 1; NewBatch 2])
    (fold_left Enqueue [NewBatch 0; NewBatch 1; NewBatch 2] NewQ)
  = (NewQ, map Some [NewBatch 0; NewBatch 1; NewBatch 2]).
Proof. split; [simpl; lia|apply queue_fifo; simpl; lia]. Defined.

(** [TotalFiles] of a queue built by [Enqueue] calls is the sum of the
    [Total] fields of its batches, when these are non-negative and the sum
    fits in an [int]. *)
Theorem TotalFiles_sum (bs : list Batch) :
  Forall (fun b => 0 <= Total b) bs -> sumTotals bs < 2 ^ 63 ->
  TotalFiles (fold_left Enqueue bs NewQ) = sumTotals bs.
Proof.
  intros Hall Hb. rewrite TotalFiles_eq, Enqueue_items. simpl.
  rewrite sum_i64; [lia|lia|exact Hall|lia].
Qed.

Lemma TotalFiles_sum_witness :
  Forall (fun b => 0 <= Total b) [mkBatch 0 MAX 2 false ∅; mkBatch 1 MAX 3 false ∅] /\
  sumTotals [mkBatch 0 MAX 2 false ∅; mkBatch 1 MAX 3 false ∅] < 2 ^ 63 /\
  TotalFiles (fold_left Enqueue [mkBatch 0 MAX 2 false ∅; mkBatch 1 MAX 3 false ∅] NewQ)
  = sumTotals [mkBatch 0 MAX 2 false ∅; mkBatch 1 MAX 3 false ∅].
Proof.
  assert (Hall : Forall (fun b => 0 <= Total b)
                   [mkBatch 0 MAX 2 false ∅; mkBatch 1 MAX 3 false ∅]).
  { repeat (apply Forall_cons; split); try exact (List.Forall_nil _); simpl; lia. }
  split; [exact Hall|]. split; [simpl; lia|].
  apply TotalFiles_sum; [exact Hall|simpl; lia].
Defined.

(** The queue of [LargeFileQ] has one batch, yet [TotalFiles] reports 0
    files in it, whatever files it was given. *)
Theorem LargeFileQ_TotalFiles_zero (uuid : nat) (files : list File) :
  QTotal (LargeFileQ uuid files) = 1 /\ length (QItems (LargeFileQ uuid files)) = 1%nat /\
  TotalFiles (LargeFileQ uuid files) = 0.
Proof. unfold LargeFileQ, AddLgFiles. destruct files; repeat split; reflexivity. Qed.

(** *** Batches (pkg/files/batch.go) *)

(** An [AddFiles] call whose candidates are all members already leaves
    the members, [Cap] and [Total] of the batch unchanged. *)
Theorem AddFiles_duplicates_unchanged (b : Batch) (fs : list File) :
  Forall (fun f => HasFile b (fid f) = true) fs ->
  Files (AddFiles b fs).1.1 = Files b /\ Cap (AddFiles b fs).1.1 = Cap b /\
  Total (AddFiles b fs).1.1 = Total b.
Proof.
  intros Hall.
  pose proof (AddFiles_cases b fs) as Hc. pose proof (AddFiles_Total_loop b fs) as HT.
  rewrite addLoop_dups in Hc, HT by exact Hall.
  cbv beta iota in Hc. destruct Hc as (HC & HF & _). auto.
Qed.

Lemma AddFiles_duplicates_unchanged_witness :
  Forall (fun f => HasFile (AddFiles (NewBatch 0) [small_file]).1.1 (fid f) = true)
    [small_file] /\
  Files (AddFiles (AddFiles (NewBatch 0) [small_file]).1.1 [small_file]).1.1
    = Files (AddFiles (NewBatch 0) [small_file]).1.1 /\
  Cap (AddFiles (AddFiles (NewBatch 0) [small_file]).1.1 [small_file]).1.1
    = Cap (AddFiles (NewBatch 0) [small_file]).1.1 /\
  Total (AddFiles (AddFiles (NewBatch 0) [small_file]).1.1 [small_file]).1.1
    = Total (AddFiles (NewBatch 0) [small_file]).1.1.
Proof.
  assert (Hall : Forall (fun f => HasFile (AddFiles (NewBatch 0) [small_file]).1.1 (fid f) = true)
                   [small_file]).
  { apply Forall_cons. split; [vm_compute; reflexivity|exact (List.Forall_nil _)]. }
  split; [exact Hall|]. apply AddFiles_duplicates_unchanged. exact Hall.
Defined.

(** When [Total] of a batch counts its members, it still does after an
    [AddFiles] call (as long as the count cannot overflow). *)
Theorem AddFiles_Total_counts_members (b : Batch) (fs : list File) :
  Total b = Z.of_nat (size (Files b)) -> Total b + Z.of_nat (length fs) < 2 ^ 63 ->
  Total (AddFiles b fs).1.1 = Z.of_nat (size (Files (AddFiles b fs).1.1)).
Proof.
  intros Hcount Hb.
  pose proof (AddFiles_Total_loop b fs) as HT.
  pose proof (AddFiles_cases b fs) as Hc.
  pose proof (addLoop_Total fs b [] [] [] ltac:(lia) Hb) as HL.
  destruct (addLoop b fs [] [] []) as [[[b' ad] na] ig] eqn:Hl.
  destruct Hc as (_ & HF & _). simpl in HL.
  apply addLoop_spec in Hl as (ex & rest & A & N & I & _ & Had & _ & _ & _ & _ & _ &
                               HFiles & Hfresh & Hnd & _).
  simpl in Had. subst ad. simpl in HT.
  rewrite HT, HF, HL, HFiles, insertFiles_size by assumption. lia.
Qed.

Lemma AddFiles_Total_counts_members_witness :
  Total (NewBatch 0) = Z.of_nat (size (Files (NewBatch 0))) /\
  Total (NewBatch 0) + Z.of_nat (length [small_file; huge_file; small_file]) < 2 ^ 63 /\
  Total (AddFiles (NewBatch 0) [small_file; huge_file; small_file]).1.1 =
    Z.of_nat (size (Files (AddFiles (NewBatch 0) [small_file; huge_file; small_file]).1.1)).
Proof.
  assert (H1 : Total (NewBatch 0) = Z.of_nat (size (Files (NewBatch 0)))) by reflexivity.
  assert (H2 : Total (NewBatch 0) + Z.of_nat (length [small_file; huge_file; small_file]) < 2 ^ 63)
    by (simpl; lia).
  split; [exact H1|]. split; [exact H2|].
  apply AddFiles_Total_counts_members; [exact H1|exact H2].
Defined.

(** *** The loop of [buildQ] (pkg/service/sync.go) *)

(** When [AddFiles] answers with the bare status [0] (no case of the switch
    of [buildQ] matches), the left-over list is empty, so [buildQ] leaves
    its loop and returns the queue without enqueuing the batch: the files
    just added to it are dropped. *)
Theorem buildQ_drops_batch_on_status0 (n : nat) (f lo : list File) (b b' : Batch)
    (q : Queue) (u : nat) :
  f <> [] -> AddFiles b f = (b', lo, 0) -> buildQ (S n) f b q u = Some q.
Proof.
  intros Hf Heq. pose proof (AddFiles_status0_nil b b' f lo Heq) as ->.
  destruct f as [|x f]; [done|].
  cbn [buildQ]. rewrite Heq.
  unfold Success, CapMaxed, UnderCap. simpl.
  destruct n; reflexivity.
Qed.

Lemma buildQ_drops_batch_on_status0_witness :
  [max_file; zero_file] <> [] /\
  AddFiles (NewBatch 0) [max_file; zero_file]
    = ((AddFiles (NewBatch 0) [max_file; zero_file]).1.1, [], 0) /\
  size (Files (AddFiles (NewBatch 0) [max_file; zero_file]).1.1) = 1%nat /\
  buildQ 1 [max_file; zero_file] (NewBatch 0) NewQ 1 = Some NewQ.
Proof.
  assert (Hs : AddFiles (NewBatch 0) [max_file; zero_file]
               = ((AddFiles (NewBatch 0) [max_file; zero_file]).1.1, [], 0))
    by (vm_compute; reflexivity).
  split; [discriminate|]. split; [exact Hs|]. split; [vm_compute; reflexivity|].
  exact (buildQ_drops_batch_on_status0 0 [max_file; zero_file] []
           (NewBatch 0) _ NewQ 1 ltac:(discriminate) Hs).
Defined.
